(** * ioAmp200W firmware: the USB CDC echo callbacks of [cdc_app.c]

    The two callbacks of [firmware/src/cdc_app.c] are embedded as
    interaction trees over the calls they make into the USB device stack
    (TinyUSB).  The stack is an external collaborator: its calls are the
    events of the trees, and a stack is any state machine that answers
    them.  A fuel-bounded runner executes a callback against a stack and
    logs every call together with its answer, so that properties of the
    callbacks become properties of the logs. *)

From Stdlib Require Import List NArith Lia Bool Arith.
From Stdlib Require Strings.Byte.
From ITree Require Import ITree ITreeFacts.
Import ListNotations ITreeNotations.
Local Open Scope itree_scope.
Local Open Scope N_scope.

Definition byte : Type := Init.Byte.byte.

(** ** The calls into the USB stack

    [uint8_t] and [uint32_t] values are only passed through or tested against
    zero by the callbacks, never computed with, so they are modelled in [N].
    [tud_cdc_n_read itf bufsize] answers the bytes the stack stores at the
    start of the caller's buffer; the [uint32_t] the C function returns is
    their number. [tud_cdc_n_write itf buffer bufsize] carries the [bufsize]
    leading bytes of the caller's buffer and the length argument itself. *)
Variant cdcE : Type -> Type :=
| tud_cdc_connected : cdcE bool
| tud_cdc_n_available (itf : N) : cdcE N
| tud_cdc_n_read (itf : N) (bufsize : N) : cdcE (list byte)
| tud_cdc_n_write (itf : N) (buffer : list byte) (bufsize : N) : cdcE N
| tud_cdc_n_write_flush (itf : N) : cdcE unit.

(** ** The transfer buffer [uint8_t buf[64]] *)

Definition sizeof_buf : N := 64.

(** The array after the stack has stored [data] at its start: the bytes
    behind [data] keep their former contents, and the array keeps its size. *)
Definition store (data buf : list byte) : list byte :=
  firstn (length buf) (data ++ skipn (length data) buf).

(** The [n] leading bytes of the array, as a callee given [(buf, n)] sees them. *)
Definition leading (n : N) (buf : list byte) : list byte :=
  firstn (N.to_nat n) buf.

(** ** The callbacks *)

(** [void tud_cdc_line_state_cb(uint8_t itf, bool dtr, bool rts)]:
    both branches of [if (dtr)] are empty. *)
Definition tud_cdc_line_state_cb (itf : N) (dtr rts : bool) : itree cdcE unit :=
  if dtr then Ret tt else Ret tt.

(** One pass through the body of [while (tud_cdc_n_available(itf))], from
    the test of the condition on: [inr tt] leaves the loop (the condition
    is false, or [break]), [inl buf'] goes round again with the buffer as
    the pass left it. *)
Definition drain_step (itf : N) (buf : list byte) : itree cdcE (list byte + unit) :=
  avail <- ITree.trigger (tud_cdc_n_available itf) ;;
  if avail =? 0 then Ret (inr tt)
  else
    data <- ITree.trigger (tud_cdc_n_read itf sizeof_buf) ;;
    let buf := store data buf in
    let count := N.of_nat (length data) in
    if count =? 0 then Ret (inr tt)
    else
      ITree.trigger (tud_cdc_n_write itf (leading count buf) count) ;;
      Ret (inl buf).

Definition drain (itf : N) (buf : list byte) : itree cdcE unit :=
  ITree.iter (drain_step itf) buf.

(** [void tud_cdc_rx_cb(uint8_t itf)]; [buf] is the content the
    uninitialised array happens to have on entry. *)
Definition tud_cdc_rx_cb (itf : N) (buf : list byte) : itree cdcE unit :=
  connected <- ITree.trigger tud_cdc_connected ;;
  if negb connected then Ret tt
  else
    drain itf buf ;;
    ITree.trigger (tud_cdc_n_write_flush itf).

(** ** Logs of calls *)

Inductive call : Type :=
| Connected (answer : bool)
| Available (itf : N) (answer : N)
| Read (itf bufsize : N) (data : list byte)
| Write (itf : N) (buffer : list byte) (bufsize : N) (answer : N)
| Flush (itf : N).

Definition record {T} (e : cdcE T) : T -> call :=
  match e in cdcE T return T -> call with
  | tud_cdc_connected => Connected
  | tud_cdc_n_available itf => Available itf
  | tud_cdc_n_read itf bufsize => Read itf bufsize
  | tud_cdc_n_write itf buffer bufsize => Write itf buffer bufsize
  | tud_cdc_n_write_flush itf => fun _ => Flush itf
  end.

(** How a run stands when the fuel is spent or the callback has returned. *)
Variant outcome (R : Type) : Type :=
| Returned (r : R) (spare : nat)
| Pending.
Arguments Returned {R} r spare.
Arguments Pending {R}.

Definition returned {R} (o : outcome R) : bool :=
  match o with Returned _ _ => true | Pending => false end.

(** ** Running a callback against a stack *)

Section Run.

(** A stack: a state and the answer it gives to each call. *)
Context {St : Type}.
Variable stack : forall T, cdcE T -> St -> St * T.

(** Every call and every turn of a loop costs one unit of fuel. *)
Fixpoint run {R} (fuel : nat) (t : itree cdcE R) (s : St)
  : list call * St * outcome R :=
  match observe t with
  | RetF r => ([], s, Returned r fuel)
  | TauF t' =>
      match fuel with
      | O => ([], s, Pending)
      | S fuel' => run fuel' t' s
      end
  | VisF e k =>
      match fuel with
      | O => ([], s, Pending)
      | S fuel' =>
          let (s', a) := stack _ e s in
          let '(l, s'', o) := run fuel' (k a) s' in
          (record e a :: l, s'', o)
      end
  end.

End Run.

(** ** A reference stack: a receive FIFO and a transmit FIFO *)

Module Fifo.

Record state : Type := mk {
  dtr : bool;
  rx : list byte;
  tx : list byte;
  sent : list byte
}.

Definition answer T (e : cdcE T) (s : state) : state * T :=
  match e in cdcE T return state * T with
  | tud_cdc_connected => (s, dtr s)
  | tud_cdc_n_available _ => (s, N.of_nat (length (rx s)))
  | tud_cdc_n_read _ bufsize =>
      (mk (dtr s) (skipn (N.to_nat bufsize) (rx s)) (tx s) (sent s),
       firstn (N.to_nat bufsize) (rx s))
  | tud_cdc_n_write _ buffer bufsize =>
      (mk (dtr s) (rx s) (tx s ++ buffer) (sent s), bufsize)
  | tud_cdc_n_write_flush _ =>
      (mk (dtr s) (rx s) [] (sent s ++ tx s), tt)
  end.

(** The number of bytes waiting in the receive FIFO. *)
Definition pending (s : state) : N := N.of_nat (length (rx s)).

End Fifo.

(** A stack in the transient read anomaly: it reports bytes available and
    then delivers none. *)
Module Glitch.

Definition answer T (e : cdcE T) (s : unit) : unit * T :=
  match e in cdcE T return unit * T with
  | tud_cdc_connected => (s, true)
  | tud_cdc_n_available _ => (s, 5)
  | tud_cdc_n_read _ _ => (s, [])
  | tud_cdc_n_write _ _ bufsize => (s, bufsize)
  | tud_cdc_n_write_flush _ => (s, tt)
  end.

End Glitch.

(** A stack that breaks the contract of [tud_cdc_n_read]: while it has
    data it reports 100 bytes available and delivers all 100 at once,
    whatever buffer size it was given. The state tells whether the data is
    still there. *)
Module Overrun.

Definition answer T (e : cdcE T) (s : bool) : bool * T :=
  match e in cdcE T return bool * T with
  | tud_cdc_connected => (s, true)
  | tud_cdc_n_available _ => (s, if s then 100 else 0)
  | tud_cdc_n_read _ _ => (false, if s then repeat Init.Byte.x55 100 else [])
  | tud_cdc_n_write _ _ bufsize => (s, bufsize)
  | tud_cdc_n_write_flush _ => (s, tt)
  end.

End Overrun.

(** Test data: the byte of value [n], and [n] bytes counting up from 1. *)
Definition b (n : nat) : byte :=
  match Strings.Byte.of_nat n with Some x => x | None => Init.Byte.x00 end.

Definition ramp (n : nat) : list byte := List.map b (List.seq 1 n).

(** Two arrays of 64 bytes of residue. *)
Definition residue : list byte := repeat Init.Byte.xff 64.

Definition blank : list byte := repeat Init.Byte.x00 64.

(** FIFO stacks with 10 and 130 bytes received, terminal present or not. *)
Definition scenario_a : Fifo.state := Fifo.mk true (ramp 10) [] [].

Definition scenario_b : Fifo.state := Fifo.mk false (ramp 10) [] [].

Definition scenario_c : Fifo.state := Fifo.mk true (ramp 130) [] [].

(** ** What a log shows *)

(** The bytes handed to [tud_cdc_n_write], in order. *)
Definition written (l : list call) : list byte :=
  flat_map (fun c => match c with Write _ buffer _ _ => buffer | _ => [] end) l.

(** The bytes [tud_cdc_n_read] delivered, in order. *)
Definition delivered (l : list call) : list byte :=
  flat_map (fun c => match c with Read _ _ data => data | _ => [] end) l.

(** The length arguments of the [tud_cdc_n_write] calls, in order. *)
Definition write_lengths (l : list call) : list N :=
  flat_map (fun c => match c with Write _ _ bufsize _ => [bufsize] | _ => [] end) l.

(** The numbers of bytes the [tud_cdc_n_read] calls returned, in order. *)
Definition read_counts (l : list call) : list N :=
  flat_map (fun c => match c with Read _ _ data => [N.of_nat (length data)] | _ => [] end) l.

Definition is_flush (c : call) : bool :=
  match c with Flush _ => true | _ => false end.

Definition is_read (c : call) : bool :=
  match c with Read _ _ _ => true | _ => false end.

Definition is_write (c : call) : bool :=
  match c with Write _ _ _ _ => true | _ => false end.

Definition is_available (c : call) : bool :=
  match c with Available _ _ => true | _ => false end.

(** How many calls of a kind a log holds. *)
Definition count (kind : call -> bool) (l : list call) : nat :=
  length (filter kind l).

(** The stack kept to the contract of [tud_cdc_n_read] in this call: it
    stored no more than [bufsize] bytes. *)
Definition read_fits (c : call) : bool :=
  match c with
  | Read _ bufsize data => N.of_nat (length data) <=? bufsize
  | _ => true
  end.

(** ** The logs the receive callback can produce

    [drain_log itf buf l fin]: [l] is a log of the drain loop entered with
    buffer [buf]; [fin] tells whether the loop has been left. *)
Inductive drain_log (itf : N) : list byte -> list call -> bool -> Prop :=
| dl_start buf :
    drain_log itf buf [] false
| dl_drained buf :
    drain_log itf buf [Available itf 0] true
| dl_queried buf avail :
    avail <> 0 ->
    drain_log itf buf [Available itf avail] false
| dl_break buf avail :
    avail <> 0 ->
    drain_log itf buf [Available itf avail; Read itf sizeof_buf []] true
| dl_read buf avail data :
    avail <> 0 -> data <> [] ->
    drain_log itf buf [Available itf avail; Read itf sizeof_buf data] false
| dl_echo buf avail data r l fin :
    avail <> 0 -> data <> [] ->
    drain_log itf (store data buf) l fin ->
    drain_log itf buf
      (Available itf avail :: Read itf sizeof_buf data ::
       Write itf (leading (N.of_nat (length data)) (store data buf))
             (N.of_nat (length data)) r :: l) fin.

(** [rx_log itf buf l fin]: [l] is a log of [tud_cdc_rx_cb itf] entered with
    buffer [buf]; [fin] tells whether the callback has returned. *)
Inductive rx_log (itf : N) (buf : list byte) : list call -> bool -> Prop :=
| rx_start :
    rx_log itf buf [] false
| rx_disconnected :
    rx_log itf buf [Connected false] true
| rx_draining l fin :
    drain_log itf buf l fin ->
    rx_log itf buf (Connected true :: l) false
| rx_flushed l :
    drain_log itf buf l true ->
    rx_log itf buf (Connected true :: l ++ [Flush itf]) true.

(** ** Further readings of a log *)

(** The call is the connection query, or a call on interface [itf]. *)
Definition on_interface (itf : N) (c : call) : bool :=
  match c with
  | Connected _ => true
  | Available i _ => i =? itf
  | Read i _ _ => i =? itf
  | Write i _ _ _ => i =? itf
  | Flush i => i =? itf
  end.

(** The buffer sizes passed to the [tud_cdc_n_read] calls, in order. *)
Definition read_sizes (l : list call) : list N :=
  flat_map (fun c => match c with Read _ bufsize _ => [bufsize] | _ => [] end) l.

Definition is_connected (c : call) : bool :=
  match c with Connected _ => true | _ => false end.

Definition nonzero (n : N) : bool := negb (n =? 0).

Definition total (ns : list N) : N := fold_right N.add 0 ns.

(** A write is handed as many bytes as its length argument says. *)
Definition write_in_bounds (c : call) : bool :=
  match c with
  | Write _ buffer bufsize _ => N.of_nat (length buffer) =? bufsize
  | _ => true
  end.

(** * Facts *)

(** ** The transfer buffer *)

Lemma length_store data buf : length (store data buf) = length buf.
Proof.
  unfold store. rewrite length_firstn, length_app, length_skipn. lia.
Qed.

(** What [tud_cdc_n_write] is handed after a read: the bytes just read (all
    of them when they fit the array), never the bytes behind them. *)
Lemma leading_store data buf :
  leading (N.of_nat (length data)) (store data buf) = firstn (length buf) data.
Proof.
  unfold leading, store. rewrite Nat2N.id, firstn_firstn.
  destruct (Nat.le_ge_cases (length data) (length buf)) as [H|H].
  - rewrite Nat.min_l by exact H.
    rewrite firstn_app, firstn_all, Nat.sub_diag. cbn [firstn].
    rewrite app_nil_r. symmetry. apply firstn_all2. exact H.
  - rewrite Nat.min_r by exact H.
    rewrite firstn_app. replace (length buf - length data)%nat with 0%nat by lia.
    cbn [firstn]. apply app_nil_r.
Qed.

Lemma leading_store_fits data buf :
  (length data <= length buf)%nat ->
  leading (N.of_nat (length data)) (store data buf) = data.
Proof. intros H. rewrite leading_store. apply firstn_all2. exact H. Qed.

Lemma count_zero (data : list byte) :
  (N.of_nat (length data) =? 0) = true <-> data = [].
Proof.
  rewrite N.eqb_eq.
  destruct data; cbn [length]; split; intros H;
    first [reflexivity | discriminate | lia].
Qed.

(** ** Logs of the grammar *)

Lemma written_app l1 l2 : written (l1 ++ l2) = written l1 ++ written l2.
Proof. apply flat_map_app. Qed.

Lemma delivered_app l1 l2 : delivered (l1 ++ l2) = delivered l1 ++ delivered l2.
Proof. apply flat_map_app. Qed.

Lemma write_lengths_app l1 l2 :
  write_lengths (l1 ++ l2) = write_lengths l1 ++ write_lengths l2.
Proof. apply flat_map_app. Qed.

Lemma count_app kind l1 l2 : count kind (l1 ++ l2) = (count kind l1 + count kind l2)%nat.
Proof. unfold count. rewrite filter_app. apply length_app. Qed.

(** The loop writes what it reads: behind the bytes written there is at
    most the last read, not yet echoed, and nothing once the loop is left. *)
Lemma drain_log_echo itf buf l fin :
  drain_log itf buf l fin ->
  length buf = N.to_nat sizeof_buf ->
  forallb read_fits l = true ->
  exists rest, delivered l = written l ++ rest /\ (fin = true -> rest = []).
Proof.
  induction 1 as [buf|buf|buf avail Ha|buf avail Ha|buf avail data Ha Hd
                 |buf avail data r l fin Ha Hd Hl IH]; intros Hbuf Hfit.
  - exists []. split; [reflexivity|reflexivity].
  - exists []. split; reflexivity.
  - exists []. split; reflexivity.
  - exists []. split; reflexivity.
  - exists data. split; [apply app_nil_r|discriminate].
  - cbn [forallb read_fits] in Hfit.
    apply andb_prop in Hfit as [_ Hfit]. apply andb_prop in Hfit as [Hdata Hfit].
    apply andb_prop in Hfit as [_ Hfit].
    apply N.leb_le in Hdata.
    destruct IH as [rest [Hrest Hfin]]; [rewrite length_store; exact Hbuf|exact Hfit|].
    exists rest. split; [|exact Hfin].
    cbn [delivered written flat_map]. fold (delivered l) (written l).
    rewrite leading_store_fits by lia.
    cbn [app]. rewrite Hrest, app_assoc. reflexivity.
Qed.

(** No write is longer than the read before it, and none is empty. *)
Lemma drain_log_lengths itf buf l fin :
  drain_log itf buf l fin ->
  Forall (fun n => n <> 0) (write_lengths l) /\
  (forallb read_fits l = true -> Forall (fun n => n <= sizeof_buf) (write_lengths l)).
Proof.
  induction 1 as [buf|buf|buf avail Ha|buf avail Ha|buf avail data Ha Hd
                 |buf avail data r l fin Ha Hd Hl [IH0 IH64]].
  1-5: split; [constructor | intros _; constructor].
  cbn [write_lengths flat_map app]. fold (write_lengths l). split.
  - constructor; [|exact IH0]. destruct data; [congruence|cbn [length]; lia].
  - cbn [forallb read_fits]. intros Hfit.
    apply andb_prop in Hfit as [_ Hfit]. apply andb_prop in Hfit as [Hdata Hfit].
    apply andb_prop in Hfit as [_ Hfit].
    constructor; [apply N.leb_le; exact Hdata | apply IH64; exact Hfit].
Qed.


(** Every write follows the read of its pass, with that read's count as
    its length and the bytes just read as its contents. *)
Lemma drain_log_write_after_read itf buf l fin :
  drain_log itf buf l fin ->
  forall pre itf' buffer bufsize r post,
    l = pre ++ Write itf' buffer bufsize r :: post ->
    exists pre' data,
      pre = pre' ++ [Read itf sizeof_buf data] /\
      itf' = itf /\
      bufsize = N.of_nat (length data) /\
      buffer = firstn (length buf) data.
Proof.
  induction 1 as [buf|buf|buf avail Ha|buf avail Ha|buf avail data Ha Hd
                 |buf avail data r0 l fin Ha Hd Hl IH];
    intros pre itf' buffer bufsize r post E.
  - destruct pre; discriminate.
  - destruct pre as [|c [|]]; discriminate.
  - destruct pre as [|c [|]]; discriminate.
  - destruct pre as [|c [|c' [|]]]; discriminate.
  - destruct pre as [|c [|c' [|]]]; discriminate.
  - destruct pre as [|c1 [|c2 [|c3 pre]]]; try discriminate.
    + injection E as <- <- <- <- <- <- _.
      exists [Available itf avail], data. repeat split. apply leading_store.
    + injection E as <- <- <- E.
      destruct (IH _ _ _ _ _ _ E) as [pre' [data' [Hpre [Hitf [Hn Hb]]]]].
      exists (Available itf avail :: Read itf sizeof_buf data ::
              Write itf (leading (N.of_nat (length data)) (store data buf))
                    (N.of_nat (length data)) r0 :: pre'), data'.
      rewrite Hpre. repeat split; try assumption.
      rewrite Hb, length_store. reflexivity.
Qed.

(** The loop never flushes. *)
Lemma drain_log_no_flush itf buf l fin :
  drain_log itf buf l fin -> count is_flush l = 0%nat.
Proof. induction 1; try reflexivity. assumption. Qed.

Section RunFacts.

Context {St : Type}.
Variable stack : forall T, cdcE T -> St -> St * T.

Lemma run_unfold {R} (t : itree cdcE R) fuel s :
  run stack fuel t s =
  match observe t with
  | RetF r => ([], s, Returned r fuel)
  | TauF t' =>
      match fuel with
      | O => ([], s, Pending)
      | S fuel' => run stack fuel' t' s
      end
  | VisF e k =>
      match fuel with
      | O => ([], s, Pending)
      | S fuel' =>
          let (s', a) := stack _ e s in
          let '(l, s'', o) := run stack fuel' (k a) s' in
          (record e a :: l, s'', o)
      end
  end.
Proof. destruct fuel; reflexivity. Qed.

Lemma run_observing {R} (t t' : itree cdcE R) fuel s :
  observe t = observe t' -> run stack fuel t s = run stack fuel t' s.
Proof. intros E. rewrite !run_unfold, E. reflexivity. Qed.

Lemma run_bind {R U} (k : R -> itree cdcE U) fuel :
  forall (t : itree cdcE R) s,
    run stack fuel (ITree.bind t k) s =
    match run stack fuel t s with
    | (l, s', Returned r spare) =>
        let '(l', s'', o) := run stack spare (k r) s' in (l ++ l', s'', o)
    | (l, s', Pending) => (l, s', Pending)
    end.
Proof.
  induction fuel as [|fuel IH]; intros t s;
    rewrite (run_unfold (ITree.bind t k)), (run_unfold t), observe_bind;
    destruct (observe t) as [r|t'|X e h]; cbn [observe _observe].
  - transitivity (run stack 0 (k r) s); [exact (eq_sym (run_unfold (k r) 0 s))|].
    destruct (run stack 0 (k r) s) as [[l' s''] o]. reflexivity.
  - reflexivity.
  - reflexivity.
  - transitivity (run stack (S fuel) (k r) s); [exact (eq_sym (run_unfold (k r) (S fuel) s))|].
    destruct (run stack (S fuel) (k r) s) as [[l' s''] o]. reflexivity.
  - apply IH.
  - destruct (stack X e s) as [s1 a]. rewrite IH.
    destruct (run stack fuel (h a) s1) as [[l s'] [r spare|]]; [|reflexivity].
    destruct (run stack spare (k r) s') as [[l' s''] o]. reflexivity.
Qed.

Lemma run_trigger {T} (e : cdcE T) fuel s :
  run stack fuel (ITree.trigger e) s =
  match fuel with
  | O => ([], s, Pending)
  | S fuel' => let (s', a) := stack _ e s in ([record e a], s', Returned a fuel')
  end.
Proof.
  destruct fuel; [reflexivity|]. simpl. destruct (stack T e s) as [s' a].
  destruct fuel; reflexivity.
Qed.

Lemma run_ret {R} (r : R) fuel s : run stack fuel (Ret r) s = ([], s, Returned r fuel).
Proof. destruct fuel; reflexivity. Qed.

Lemma run_tau {R} (t : itree cdcE R) fuel s :
  run stack (S fuel) (Tau t) s = run stack fuel t s.
Proof. reflexivity. Qed.

(** *** One pass of the drain loop, and the loop *)

Lemma run_drain_step itf buf fuel s :
  run stack fuel (drain_step itf buf) s =
  match fuel with
  | O => ([], s, Pending)
  | S f1 =>
      let (s1, avail) := stack _ (tud_cdc_n_available itf) s in
      if avail =? 0 then ([Available itf avail], s1, Returned (inr tt) f1)
      else
        match f1 with
        | O => ([Available itf avail], s1, Pending)
        | S f2 =>
            let (s2, data) := stack _ (tud_cdc_n_read itf sizeof_buf) s1 in
            let count := N.of_nat (length data) in
            if count =? 0
            then ([Available itf avail; Read itf sizeof_buf data], s2,
                  Returned (inr tt) f2)
            else
              match f2 with
              | O => ([Available itf avail; Read itf sizeof_buf data], s2, Pending)
              | S f3 =>
                  let (s3, r) :=
                    stack _ (tud_cdc_n_write itf (leading count (store data buf)) count) s2 in
                  ([Available itf avail; Read itf sizeof_buf data;
                    Write itf (leading count (store data buf)) count r],
                   s3, Returned (inl (store data buf)) f3)
              end
        end
  end.
Proof.
  unfold drain_step. rewrite run_bind, run_trigger.
  destruct fuel as [|f1]; [reflexivity|].
  destruct (stack _ (tud_cdc_n_available itf) s) as [s1 avail].
  destruct (avail =? 0); [rewrite run_ret; reflexivity|].
  rewrite run_bind, run_trigger.
  destruct f1 as [|f2]; [reflexivity|].
  destruct (stack _ (tud_cdc_n_read itf sizeof_buf) s1) as [s2 data].
  cbv zeta. destruct (N.of_nat (length data) =? 0); [rewrite run_ret; reflexivity|].
  rewrite run_bind, run_trigger.
  destruct f2 as [|f3]; [reflexivity|].
  destruct (stack _ (tud_cdc_n_write itf _ _) s2) as [s3 r].
  rewrite run_ret. reflexivity.
Qed.

Lemma run_drain itf buf fuel s :
  run stack fuel (drain itf buf) s =
  match run stack fuel (drain_step itf buf) s with
  | (l, s', Returned (inl buf') (S spare)) =>
      let '(l', s'', o) := run stack spare (drain itf buf') s' in (l ++ l', s'', o)
  | (l, s', Returned (inl _) O) => (l, s', Pending)
  | (l, s', Returned (inr r) spare) => (l, s', Returned r spare)
  | (l, s', Pending) => (l, s', Pending)
  end.
Proof.
  unfold drain at 1.
  rewrite (run_observing _ _ fuel s (observing_observe (unfold_aloop_ (drain_step itf) buf))).
  rewrite run_bind.
  destruct (run stack fuel (drain_step itf buf) s) as [[l s'] [[buf'|r] spare|]];
    cbn beta iota.
  - destruct spare as [|spare]; [cbn; rewrite app_nil_r; reflexivity|].
    rewrite run_tau. reflexivity.
  - rewrite run_ret. cbn. rewrite app_nil_r. reflexivity.
  - reflexivity.
Qed.

Lemma run_rx_cb itf buf fuel s :
  run stack fuel (tud_cdc_rx_cb itf buf) s =
  match fuel with
  | O => ([], s, Pending)
  | S f1 =>
      let (s1, connected) := stack _ tud_cdc_connected s in
      if negb connected then ([Connected connected], s1, Returned tt f1)
      else
        match run stack f1 (drain itf buf) s1 with
        | (l, s2, Returned _ (S f2)) =>
            let (s3, _) := stack _ (tud_cdc_n_write_flush itf) s2 in
            (Connected connected :: l ++ [Flush itf], s3, Returned tt f2)
        | (l, s2, _) => (Connected connected :: l, s2, Pending)
        end
  end.
Proof.
  unfold tud_cdc_rx_cb. rewrite run_bind, run_trigger.
  destruct fuel as [|f1]; [reflexivity|].
  destruct (stack _ tud_cdc_connected s) as [s1 connected].
  destruct (negb connected); [rewrite run_ret; reflexivity|].
  rewrite run_bind.
  destruct (run stack f1 (drain itf buf) s1) as [[l s2] [[] f2|]]; [|reflexivity].
  rewrite run_trigger. destruct f2 as [|f2]; [rewrite app_nil_r; reflexivity|].
  destruct (stack _ (tud_cdc_n_write_flush itf) s2) as [s3 []]. reflexivity.
Qed.

(** *** Every log is a log of the grammar *)

Lemma run_drain_log itf fuel :
  forall buf s l s' o,
    run stack fuel (drain itf buf) s = (l, s', o) ->
    drain_log itf buf l (returned o).
Proof.
  induction fuel as [fuel IH] using lt_wf_ind. intros buf s l s' o.
  rewrite run_drain, run_drain_step.
  destruct fuel as [|f1]; [intros [= <- <- <-]; constructor|].
  destruct (stack _ (tud_cdc_n_available itf) s) as [s1 avail].
  destruct (N.eqb_spec avail 0) as [->|Havail]; [intros [= <- <- <-]; constructor|].
  destruct f1 as [|f2]; [intros [= <- <- <-]; constructor; exact Havail|].
  destruct (stack _ (tud_cdc_n_read itf sizeof_buf) s1) as [s2 data]. cbv zeta.
  destruct (N.of_nat (length data) =? 0) eqn:Hcount.
  { apply count_zero in Hcount. subst data. intros [= <- <- <-]. constructor. exact Havail. }
  assert (Hdata : data <> []).
  { intros E. apply count_zero in E. congruence. }
  destruct f2 as [|f3]; [intros [= <- <- <-]; constructor; assumption|].
  destruct (stack _ (tud_cdc_n_write itf _ _) s2) as [s3 r].
  destruct f3 as [|f4].
  { intros [= <- <- <-]. apply dl_echo; try assumption. constructor. }
  destruct (run stack f4 (drain itf (store data buf)) s3) as [[l' s''] o'] eqn:Hrest.
  intros [= <- <- <-]. cbn [app]. apply dl_echo; try assumption.
  apply (IH f4 ltac:(lia) _ _ _ _ _ Hrest).
Qed.

Lemma run_rx_log itf buf fuel s l s' o :
  run stack fuel (tud_cdc_rx_cb itf buf) s = (l, s', o) ->
  rx_log itf buf l (returned o).
Proof.
  rewrite run_rx_cb.
  destruct fuel as [|f1]; [intros [= <- <- <-]; constructor|].
  destruct (stack _ tud_cdc_connected s) as [s1 [|]]; cbn [negb];
    [|intros [= <- <- <-]; constructor].
  destruct (run stack f1 (drain itf buf) s1) as [[l1 s2] o1] eqn:Hdrain.
  apply run_drain_log in Hdrain.
  destruct o1 as [[] [|f2]|].
  - intros [= <- <- <-]. econstructor. exact Hdrain.
  - destruct (stack _ (tud_cdc_n_write_flush itf) s2) as [s3 []].
    intros [= <- <- <-]. constructor. exact Hdrain.
  - intros [= <- <- <-]. econstructor. exact Hdrain.
Qed.

End RunFacts.

(** * The properties of the callbacks *)

Section Callbacks.

Context {St : Type}.
Variable stack : forall T, cdcE T -> St -> St * T.

(** The drain loop behaves the same whatever the array held on entry. *)
Lemma run_drain_residue itf fuel :
  forall buf1 buf2 s,
    length buf1 = length buf2 ->
    run stack fuel (drain itf buf1) s = run stack fuel (drain itf buf2) s.
Proof.
  induction fuel as [fuel IH] using lt_wf_ind. intros buf1 buf2 s Hlen.
  rewrite !run_drain, !run_drain_step.
  destruct fuel as [|f1]; [reflexivity|].
  destruct (stack _ (tud_cdc_n_available itf) s) as [s1 avail].
  destruct (avail =? 0); [reflexivity|].
  destruct f1 as [|f2]; [reflexivity|].
  destruct (stack _ (tud_cdc_n_read itf sizeof_buf) s1) as [s2 data]. cbv zeta.
  destruct (N.of_nat (length data) =? 0); [reflexivity|].
  destruct f2 as [|f3]; [reflexivity|].
  rewrite !leading_store, Hlen.
  destruct (stack _ (tud_cdc_n_write itf _ _) s2) as [s3 r].
  destruct f3 as [|f4]; [reflexivity|].
  rewrite (IH f4 ltac:(lia) (store data buf1) (store data buf2) s3);
    [reflexivity | rewrite !length_store; exact Hlen].
Qed.

(** C1 (echo fidelity): whenever the stack keeps its reads within the
    buffer size it was given, the bytes the receive callback passes to
    [tud_cdc_n_write], concatenated in call order, are a prefix of the
    bytes [tud_cdc_n_read] returned, and once the callback has returned
    they are exactly those bytes: same bytes, same order, same number. *)
Theorem rx_cb_echo_fidelity itf buf fuel s l s' o :
  length buf = N.to_nat sizeof_buf ->
  run stack fuel (tud_cdc_rx_cb itf buf) s = (l, s', o) ->
  forallb read_fits l = true ->
  (exists rest, delivered l = written l ++ rest) /\
  (returned o = true -> written l = delivered l).
Proof.
  intros Hbuf Hrun Hfit. apply run_rx_log in Hrun.
  destruct Hrun as [| |l fin Hl|l Hl].
  - split; [exists []|]; reflexivity.
  - split; [exists []|]; reflexivity.
  - change (forallb read_fits l = true) in Hfit.
    destruct (drain_log_echo _ _ _ _ Hl Hbuf Hfit) as [rest [Hrest _]].
    split; [exists rest; exact Hrest | discriminate].
  - change (forallb read_fits (l ++ [Flush itf]) = true) in Hfit.
    rewrite forallb_app in Hfit.
    apply andb_prop in Hfit as [Hfit _].
    destruct (drain_log_echo _ _ _ _ Hl Hbuf Hfit) as [rest [Hrest Hfin]].
    specialize (Hfin eq_refl). subst rest. rewrite app_nil_r in Hrest.
    assert (E : written (Connected true :: l ++ [Flush itf]) =
                delivered (Connected true :: l ++ [Flush itf])).
    { change (written (l ++ [Flush itf]) = delivered (l ++ [Flush itf])).
      rewrite written_app, delivered_app, Hrest. reflexivity. }
    split; [exists []; rewrite app_nil_r; symmetry; exact E | intros _; exact E].
Qed.

(** C2, as amended (flush invariant): an invocation of the receive
    callback that returns starts with the connection query; when the
    answer is true it makes exactly one flush call, its last call,
    however many passes the drain loop made; when the answer is false it
    makes no flush call. *)
Theorem rx_cb_flush_once_if_connected itf buf fuel s l s' o :
  run stack fuel (tud_cdc_rx_cb itf buf) s = (l, s', o) ->
  returned o = true ->
  exists connected rest,
    l = Connected connected :: rest /\
    count is_flush l = (if connected then 1 else 0)%nat /\
    (connected = true -> exists body, rest = body ++ [Flush itf]).
Proof.
  intros Hrun Hret. apply run_rx_log in Hrun. rewrite Hret in Hrun.
  inversion Hrun as [| |l0 fin Hl|l0 Hl]; subst.
  - exists false, []. repeat split. discriminate.
  - exists true, (l0 ++ [Flush itf]). repeat split.
    + change (count is_flush (l0 ++ [Flush itf]) = 1%nat).
      rewrite count_app, (drain_log_no_flush _ _ _ _ Hl). reflexivity.
    + intros _. exists l0. reflexivity.
Qed.

(** C3 (disconnected silence): when [tud_cdc_connected] answers false the
    receive callback returns at once: the connection query is its only
    call, so it reads nothing, writes nothing, and the stack is left as
    the query left it. *)
Theorem rx_cb_disconnected_silence itf buf fuel s :
  snd (stack _ tud_cdc_connected s) = false ->
  run stack (S fuel) (tud_cdc_rx_cb itf buf) s =
  ([Connected false], fst (stack _ tud_cdc_connected s), Returned tt fuel).
Proof.
  intros H. rewrite run_rx_cb.
  destruct (stack _ tud_cdc_connected s) as [s1 c]. cbn [fst snd] in *.
  subst c. reflexivity.
Qed.

(** C5, as amended (bounded chunking): whenever the stack keeps its reads
    within the buffer size it was given, no [tud_cdc_n_write] call of the
    receive callback is passed a length above 64, returned or not. The
    callback passes the read's count on unchecked, so the bound rests on
    that contract of [tud_cdc_n_read]. *)
Theorem rx_cb_bounded_chunking itf buf fuel s l s' o :
  run stack fuel (tud_cdc_rx_cb itf buf) s = (l, s', o) ->
  forallb read_fits l = true ->
  Forall (fun n => n <= 64) (write_lengths l).
Proof.
  intros Hrun Hfit. apply run_rx_log in Hrun.
  destruct Hrun as [| |l fin Hl|l Hl]; try constructor.
  - change (forallb read_fits l = true) in Hfit.
    apply (proj2 (drain_log_lengths _ _ _ _ Hl) Hfit).
  - change (forallb read_fits (l ++ [Flush itf]) = true) in Hfit.
    rewrite forallb_app in Hfit.
    apply andb_prop in Hfit as [Hfit _].
    change (Forall (fun n => n <= 64) (write_lengths (l ++ [Flush itf]))).
    rewrite write_lengths_app. cbn [write_lengths flat_map]. rewrite app_nil_r.
    apply (proj2 (drain_log_lengths _ _ _ _ Hl) Hfit).
Qed.


(** C7 (the line-state callback is a total no-op): for every interface,
    DTR and RTS value the line-state callback is the program that just
    returns; run against any stack, with any fuel, it makes no call,
    leaves the stack as it was and has returned; and the RTS value makes
    no difference. *)
Theorem line_state_cb_no_op itf dtr rts fuel s :
  tud_cdc_line_state_cb itf dtr rts = Ret tt /\
  run stack fuel (tud_cdc_line_state_cb itf dtr rts) s = ([], s, Returned tt fuel) /\
  forall rts', tud_cdc_line_state_cb itf dtr rts' = tud_cdc_line_state_cb itf dtr rts.
Proof.
  assert (E : forall x, tud_cdc_line_state_cb itf dtr x = Ret tt)
    by (intros x; unfold tud_cdc_line_state_cb; destruct dtr; reflexivity).
  split; [apply E|]. split; [rewrite E; apply run_ret|].
  intros rts'. rewrite !E. reflexivity.
Qed.

(** C9 (no stale-buffer leakage): two runs of the receive callback that
    differ only in what the array held on entry make the same calls with
    the same answers and end alike; and every write comes right after the
    read of its pass, is passed that read's count as its length, and is
    handed bytes of that read only. *)
Theorem rx_cb_no_stale_bytes itf buf1 buf2 fuel s :
  length buf1 = length buf2 ->
  run stack fuel (tud_cdc_rx_cb itf buf1) s = run stack fuel (tud_cdc_rx_cb itf buf2) s /\
  forall l s' o pre itf' buffer bufsize r post,
    run stack fuel (tud_cdc_rx_cb itf buf1) s = (l, s', o) ->
    l = pre ++ Write itf' buffer bufsize r :: post ->
    exists pre' data,
      pre = pre' ++ [Read itf sizeof_buf data] /\
      itf' = itf /\
      bufsize = N.of_nat (length data) /\
      buffer = firstn (length buf1) data.
Proof.
  intros Hlen. split.
  - rewrite !run_rx_cb. destruct fuel as [|f1]; [reflexivity|].
    destruct (stack _ tud_cdc_connected s) as [s1 c].
    destruct (negb c); [reflexivity|].
    rewrite (run_drain_residue itf f1 buf1 buf2 s1 Hlen). reflexivity.
  - intros l s' o pre itf' buffer bufsize r post Hrun E.
    apply run_rx_log in Hrun.
    destruct Hrun as [| |l fin Hl|l Hl].
    + destruct pre; discriminate.
    + destruct pre as [|c [|]]; discriminate.
    + destruct pre as [|c pre]; [discriminate|]. injection E as <- E.
      destruct (drain_log_write_after_read _ _ _ _ Hl _ _ _ _ _ _ E)
        as [pre' [data [Hpre H]]].
      exists (Connected true :: pre'), data. rewrite Hpre. split; [reflexivity|exact H].
    + destruct pre as [|c pre]; [discriminate|]. injection E as <- E.
      induction post as [|c post _] using rev_ind.
      * apply app_inj_tail in E as [_ E]. discriminate.
      * change (l ++ [Flush itf] =
                pre ++ (Write itf' buffer bufsize r :: post) ++ [c]) in E.
        rewrite app_assoc in E. apply app_inj_tail in E as [E _].
        destruct (drain_log_write_after_read _ _ _ _ Hl _ _ _ _ _ _ E)
          as [pre' [data [Hpre H]]].
        exists (Connected true :: pre'), data. rewrite Hpre.
        split; [reflexivity|exact H].
Qed.

(** C10 (no zero-length writes): whatever the stack does, no
    [tud_cdc_n_write] call of the receive callback is passed length 0. *)
Theorem rx_cb_no_empty_write itf buf fuel s l s' o :
  run stack fuel (tud_cdc_rx_cb itf buf) s = (l, s', o) ->
  Forall (fun n => n <> 0) (write_lengths l).
Proof.
  intros Hrun. apply run_rx_log in Hrun.
  destruct Hrun as [| |l fin Hl|l Hl]; try constructor.
  - apply (proj1 (drain_log_lengths _ _ _ _ Hl)).
  - change (Forall (fun n => n <> 0) (write_lengths (l ++ [Flush itf]))).
    rewrite write_lengths_app. cbn [write_lengths flat_map]. rewrite app_nil_r.
    apply (proj1 (drain_log_lengths _ _ _ _ Hl)).
Qed.

End Callbacks.

(** ** Termination of the drain loop *)

Section Termination.

Context {St : Type}.
Variable stack : forall T, cdcE T -> St -> St * T.
Variable itf : N.

(** The stack's count of bytes available on [itf]. *)
Variable available_count : St -> N.

(** A read that returns bytes takes them off the count. *)
Hypothesis read_consumes :
  forall s,
    snd (stack _ (tud_cdc_n_read itf sizeof_buf) s) <> [] ->
    available_count (fst (stack _ (tud_cdc_n_read itf sizeof_buf) s))
    + N.of_nat (length (snd (stack _ (tud_cdc_n_read itf sizeof_buf) s)))
    = available_count s.

(** No bytes arrive while the loop runs: neither the query nor the write
    raises the count. *)
Hypothesis available_adds_none :
  forall s,
    available_count (fst (stack _ (tud_cdc_n_available itf) s)) <= available_count s.

Hypothesis write_adds_none :
  forall s buffer bufsize,
    available_count (fst (stack _ (tud_cdc_n_write itf buffer bufsize) s))
    <= available_count s.

(** Four units of fuel for each byte counted, and two more, are enough
    for the loop to be left; fuel beyond that is handed back. *)
Lemma drain_returns m :
  forall s buf k,
    (N.to_nat (available_count s) <= m)%nat ->
    exists l s' spare,
      run stack (S (S (4 * m + k))) (drain itf buf) s = (l, s', Returned tt spare) /\
      (k <= spare)%nat.
Proof.
  induction m as [|m IH]; intros s buf k Hm;
    rewrite run_drain, run_drain_step;
    pose proof (available_adds_none s) as Hq;
    destruct (stack _ (tud_cdc_n_available itf) s) as [s1 avail];
    cbn [fst] in Hq;
    (destruct (avail =? 0); [eexists _, _, _; split; [reflexivity|lia]|]);
    pose proof (read_consumes s1) as Hr;
    destruct (stack _ (tud_cdc_n_read itf sizeof_buf) s1) as [s2 data];
    cbn [fst snd] in Hr; cbv zeta;
    (destruct (N.of_nat (length data) =? 0) eqn:Hcount;
     [eexists _, _, _; split; [reflexivity|lia]|]);
    (assert (Hdata : data <> []) by (intros E; apply count_zero in E; congruence));
    specialize (Hr Hdata); apply N.eqb_neq in Hcount.
  - lia.
  - replace (4 * S m + k)%nat with (S (S (S (S (4 * m + k)))))%nat by lia.
    pose proof (write_adds_none s2 (leading (N.of_nat (length data)) (store data buf))
                                (N.of_nat (length data))) as Hw.
    destruct (stack _ (tud_cdc_n_write itf _ _) s2) as [s3 r]. cbn [fst] in Hw.
    destruct (IH s3 (store data buf) k ltac:(lia)) as [l [s' [spare [Hrun Hk]]]].
    rewrite Hrun. eexists _, _, _. split; [reflexivity|exact Hk].
Qed.

(** C8 (drain-loop termination): when every read that returns bytes
    takes them off the stack's available count and neither the query nor
    the write adds to it, the receive callback returns: there is a bound
    such that with that much fuel or more the run ends returned. *)
Theorem rx_cb_terminates buf s :
  exists bound, forall fuel, (bound <= fuel)%nat ->
    exists l s' spare,
      run stack fuel (tud_cdc_rx_cb itf buf) s = (l, s', Returned tt spare).
Proof.
  exists (4 * N.to_nat (available_count (fst (stack _ tud_cdc_connected s))) + 4)%nat.
  intros fuel Hfuel. rewrite run_rx_cb.
  destruct fuel as [|f1]; [lia|].
  destruct (stack _ tud_cdc_connected s) as [s1 c]. cbn [fst] in Hfuel.
  destruct (negb c); [eexists _, _, _; reflexivity|].
  set (m := N.to_nat (available_count s1)) in *.
  destruct (drain_returns m s1 buf (f1 - (4 * m + 2)) (Nat.le_refl _))
    as [l [s2 [spare [Hrun Hk]]]].
  replace (S (S (4 * m + (f1 - (4 * m + 2)))))%nat with f1 in Hrun by lia.
  rewrite Hrun. destruct spare as [|f2]; [lia|].
  destruct (stack _ (tud_cdc_n_write_flush itf) s2) as [s3 u].
  eexists _, _, _. reflexivity.
Qed.

End Termination.

(** ** Scenario C: 130 bytes available while connected *)

Section ScenarioC.

Context {St : Type}.
Variable stack : forall T, cdcE T -> St -> St * T.
Variable itf : N.

(** The stack's count of bytes available on [itf]. *)
Variable available_count : St -> N.

(** The query reports the count and leaves it alone. *)
Hypothesis available_reports :
  forall s,
    snd (stack _ (tud_cdc_n_available itf) s) = available_count s /\
    available_count (fst (stack _ (tud_cdc_n_available itf) s)) = available_count s.

(** A read returns as many bytes as fit the buffer, or all that remain,
    and takes them off the count. *)
Hypothesis read_takes :
  forall s,
    N.of_nat (length (snd (stack _ (tud_cdc_n_read itf sizeof_buf) s)))
    = N.min sizeof_buf (available_count s) /\
    available_count (fst (stack _ (tud_cdc_n_read itf sizeof_buf) s))
    = available_count s - N.min sizeof_buf (available_count s).

Hypothesis write_keeps :
  forall s buffer bufsize,
    available_count (fst (stack _ (tud_cdc_n_write itf buffer bufsize) s))
    = available_count s.

(** One full pass of the loop over a stack that has bytes. *)
Lemma drain_pass buf s k :
  available_count s <> 0 ->
  exists data r s3,
    N.of_nat (length data) = N.min sizeof_buf (available_count s) /\
    available_count s3 = available_count s - N.min sizeof_buf (available_count s) /\
    run stack (4 + k) (drain itf buf) s =
    (let '(l, s', o) := run stack k (drain itf (store data buf)) s3 in
     (Available itf (available_count s) :: Read itf sizeof_buf data ::
      Write itf (leading (N.of_nat (length data)) (store data buf))
            (N.of_nat (length data)) r :: l, s', o)).
Proof.
  intros Hne. rewrite run_drain, run_drain_step. cbn [Nat.add].
  destruct (available_reports s) as [Ha1 Ha2].
  destruct (stack _ (tud_cdc_n_available itf) s) as [s1 avail]. cbn [fst snd] in *.
  subst avail. destruct (N.eqb_spec (available_count s) 0) as [E|_]; [contradiction|].
  destruct (read_takes s1) as [Hr1 Hr2].
  destruct (stack _ (tud_cdc_n_read itf sizeof_buf) s1) as [s2 data]. cbn [fst snd] in *.
  cbv zeta. rewrite Ha2 in Hr1, Hr2.
  destruct (N.eqb_spec (N.of_nat (length data)) 0) as [E|_];
    [unfold sizeof_buf in Hr1; lia|].
  pose proof (write_keeps s2 (leading (N.of_nat (length data)) (store data buf))
                          (N.of_nat (length data))) as Hw.
  destruct (stack _ (tud_cdc_n_write itf _ _) s2) as [s3 r]. cbn [fst] in Hw.
  exists data, r, s3. split; [exact Hr1|]. split; [rewrite Hw; exact Hr2|].
  destruct (run stack k (drain itf (store data buf)) s3) as [[l s'] o]. reflexivity.
Qed.

(** The pass that finds the stack drained. *)
Lemma drain_drained buf s k :
  available_count s = 0 ->
  exists s1, run stack (S k) (drain itf buf) s = ([Available itf 0], s1, Returned tt k).
Proof.
  intros H0. rewrite run_drain, run_drain_step.
  destruct (available_reports s) as [Ha1 _].
  destruct (stack _ (tud_cdc_n_available itf) s) as [s1 avail]. cbn [snd] in Ha1.
  rewrite Ha1, H0. exists s1. reflexivity.
Qed.

(** C4 (scenario C): with a terminal connected and 130 bytes available,
    on a stack whose reads return the lesser of the buffer size and what
    remains, the receive callback makes exactly these calls and returns:
    the connection query; three passes of query, read and write, moving
    64, 64 and 2 bytes with the counts 130, 66 and 2 reported; the query
    that reports 0; and one flush, last. *)
Theorem rx_cb_scenario_c buf s fuel :
  length buf = N.to_nat sizeof_buf ->
  snd (stack _ tud_cdc_connected s) = true ->
  available_count (fst (stack _ tud_cdc_connected s)) = 130 ->
  (15 <= fuel)%nat ->
  exists d1 d2 d3 r1 r2 r3 s',
    length d1 = 64%nat /\ length d2 = 64%nat /\ length d3 = 2%nat /\
    run stack fuel (tud_cdc_rx_cb itf buf) s =
    ([Connected true;
      Available itf 130; Read itf 64 d1; Write itf d1 64 r1;
      Available itf 66; Read itf 64 d2; Write itf d2 64 r2;
      Available itf 2; Read itf 64 d3; Write itf d3 2 r3;
      Available itf 0;
      Flush itf],
     s', Returned tt (fuel - 15)).
Proof.
  intros Hbuf Hc H130 Hfuel.
  remember (fuel - 15)%nat as k eqn:Hk.
  assert (E : fuel = S (4 + (4 + (4 + S (S k))))) by lia.
  clear Hk Hfuel. subst fuel.
  rewrite run_rx_cb.
  destruct (stack _ tud_cdc_connected s) as [s1 c]. cbn [fst snd] in *. subst c.
  cbn [negb].
  destruct (drain_pass buf s1 (4 + (4 + S (S k))))
    as [d1 [r1 [s2 [Hd1 [Hs2 ->]]]]]; [rewrite H130; discriminate|].
  rewrite H130 in Hd1, Hs2. change (N.min sizeof_buf 130) with 64 in Hd1, Hs2.
  change (130 - 64) with 66 in Hs2.
  destruct (drain_pass (store d1 buf) s2 (4 + S (S k)))
    as [d2 [r2 [s3 [Hd2 [Hs3 ->]]]]]; [rewrite Hs2; discriminate|].
  rewrite Hs2 in Hd2, Hs3. change (N.min sizeof_buf 66) with 64 in Hd2, Hs3.
  change (66 - 64) with 2 in Hs3.
  destruct (drain_pass (store d2 (store d1 buf)) s3 (S (S k)))
    as [d3 [r3 [s4 [Hd3 [Hs4 ->]]]]]; [rewrite Hs3; discriminate|].
  rewrite Hs3 in Hd3, Hs4. change (N.min sizeof_buf 2) with 2 in Hd3, Hs4.
  change (2 - 2) with 0 in Hs4.
  destruct (drain_drained (store d3 (store d2 (store d1 buf))) s4 (S k) Hs4)
    as [s5 ->].
  destruct (stack _ (tud_cdc_n_write_flush itf) s5) as [s6 u].
  exists d1, d2, d3, r1, r2, r3, s6.
  rewrite H130, Hs2, Hs3.
  rewrite !leading_store_fits by (rewrite ?length_store; unfold sizeof_buf in *; lia).
  rewrite Hd1, Hd2, Hd3.
  repeat split; lia.
Qed.

End ScenarioC.

(** * The callbacks on the reference stacks *)

(** ** The FIFO stack keeps the contracts assumed above *)

Lemma fifo_read_consumes itf (s : Fifo.state) :
  snd (Fifo.answer _ (tud_cdc_n_read itf sizeof_buf) s) <> [] ->
  Fifo.pending (fst (Fifo.answer _ (tud_cdc_n_read itf sizeof_buf) s))
  + N.of_nat (length (snd (Fifo.answer _ (tud_cdc_n_read itf sizeof_buf) s)))
  = Fifo.pending s.
Proof.
  intros _. unfold Fifo.pending. cbn [Fifo.answer fst snd Fifo.rx].
  rewrite length_skipn, length_firstn. lia.
Qed.

Lemma fifo_available_reports itf (s : Fifo.state) :
  snd (Fifo.answer _ (tud_cdc_n_available itf) s) = Fifo.pending s /\
  Fifo.pending (fst (Fifo.answer _ (tud_cdc_n_available itf) s)) = Fifo.pending s.
Proof. split; reflexivity. Qed.

Lemma fifo_read_takes itf (s : Fifo.state) :
  N.of_nat (length (snd (Fifo.answer _ (tud_cdc_n_read itf sizeof_buf) s)))
  = N.min sizeof_buf (Fifo.pending s) /\
  Fifo.pending (fst (Fifo.answer _ (tud_cdc_n_read itf sizeof_buf) s))
  = Fifo.pending s - N.min sizeof_buf (Fifo.pending s).
Proof.
  unfold Fifo.pending. cbn [Fifo.answer fst snd Fifo.rx].
  rewrite length_skipn, length_firstn. unfold sizeof_buf. lia.
Qed.

Lemma fifo_write_keeps itf (s : Fifo.state) buffer bufsize :
  Fifo.pending (fst (Fifo.answer _ (tud_cdc_n_write itf buffer bufsize) s))
  = Fifo.pending s.
Proof. reflexivity. Qed.

(** Scenario A of the specification: ten bytes while connected. *)
Example rx_cb_scenario_a :
  run Fifo.answer 7 (tud_cdc_rx_cb 0 residue) scenario_a =
  ([Connected true;
    Available 0 10; Read 0 64 (ramp 10); Write 0 (ramp 10) 10 10;
    Available 0 0;
    Flush 0],
   Fifo.mk true [] [] (ramp 10), Returned tt 0).
Proof. vm_compute. reflexivity. Qed.

(** ** Instances of the theorems *)

Lemma rx_cb_echo_fidelity_witness :
  exists l s' o,
    run Fifo.answer 20 (tud_cdc_rx_cb 0 residue) scenario_c = (l, s', o) /\
    returned o = true /\
    written l = delivered l /\
    written l = ramp 130.
Proof.
  eexists _, _, _. split; [vm_compute; reflexivity|].
  split; [reflexivity|]. split; [|vm_compute; reflexivity].
  refine (proj2 (rx_cb_echo_fidelity Fifo.answer 0 residue 20 scenario_c _ _ _ _ _ _) _);
    [reflexivity | vm_compute; reflexivity | reflexivity | reflexivity].
Defined.

(** C2 as stated fails: on the FIFO stack with no terminal present the
    receive callback returns without having flushed. *)
Lemma rx_cb_flush_skipped_when_disconnected :
  ~ (forall (St : Type) (stack : forall T, cdcE T -> St -> St * T)
            itf buf fuel s l s' o,
        run stack fuel (tud_cdc_rx_cb itf buf) s = (l, s', o) ->
        returned o = true ->
        count is_flush l = 1%nat).
Proof.
  intros H.
  specialize (H Fifo.state Fifo.answer 0 residue 5%nat scenario_b
                [Connected false] scenario_b (Returned tt 4) eq_refl eq_refl).
  discriminate H.
Qed.

Lemma rx_cb_flush_once_if_connected_witness :
  exists connected rest,
    [Connected true;
     Available 0 10; Read 0 64 (ramp 10); Write 0 (ramp 10) 10 10;
     Available 0 0;
     Flush 0] = Connected connected :: rest /\
    count is_flush
      [Connected true;
       Available 0 10; Read 0 64 (ramp 10); Write 0 (ramp 10) 10 10;
       Available 0 0;
       Flush 0] = (if connected then 1 else 0)%nat /\
    (connected = true -> exists body, rest = body ++ [Flush 0]).
Proof.
  refine (rx_cb_flush_once_if_connected Fifo.answer 0 residue 7 scenario_a
            _ (Fifo.mk true [] [] (ramp 10)) (Returned tt 0) _ _);
    [vm_compute; reflexivity | reflexivity].
Defined.

Lemma rx_cb_disconnected_silence_witness :
  snd (Fifo.answer _ tud_cdc_connected scenario_b) = false /\
  run Fifo.answer 5 (tud_cdc_rx_cb 0 residue) scenario_b =
  ([Connected false], scenario_b, Returned tt 4).
Proof.
  split; [reflexivity|].
  exact (rx_cb_disconnected_silence Fifo.answer 0 residue 4 scenario_b eq_refl).
Defined.

Lemma rx_cb_scenario_c_witness :
  exists d1 d2 d3 r1 r2 r3 s',
    length d1 = 64%nat /\ length d2 = 64%nat /\ length d3 = 2%nat /\
    run Fifo.answer 15 (tud_cdc_rx_cb 0 residue) scenario_c =
    ([Connected true;
      Available 0 130; Read 0 64 d1; Write 0 d1 64 r1;
      Available 0 66; Read 0 64 d2; Write 0 d2 64 r2;
      Available 0 2; Read 0 64 d3; Write 0 d3 2 r3;
      Available 0 0;
      Flush 0],
     s', Returned tt 0).
Proof.
  refine (rx_cb_scenario_c Fifo.answer 0 Fifo.pending
            (fifo_available_reports 0) (fifo_read_takes 0) (fifo_write_keeps 0)
            residue scenario_c 15 _ _ _ _);
    [reflexivity | reflexivity | reflexivity | lia].
Defined.

Lemma rx_cb_bounded_chunking_witness :
  exists l s' o,
    run Fifo.answer 20 (tud_cdc_rx_cb 0 residue) scenario_c = (l, s', o) /\
    write_lengths l = [64; 64; 2] /\
    Forall (fun n => n <= 64) (write_lengths l).
Proof.
  eexists _, _, _. split; [vm_compute; reflexivity|].
  split; [reflexivity|].
  refine (rx_cb_bounded_chunking Fifo.answer 0 residue 20 scenario_c _ _ _ _ _);
    [vm_compute; reflexivity | reflexivity].
Defined.

(** C5 as stated, for every stack, fails: the callback hands the count of
    a read on to the write as it is, so on the stack that delivers 100
    bytes into a read of buffer size 64 the write is passed length 100. *)
Lemma rx_cb_write_length_follows_overrun :
  ~ (forall (St : Type) (stack : forall T, cdcE T -> St -> St * T)
            itf buf fuel s l s' o,
        run stack fuel (tud_cdc_rx_cb itf buf) s = (l, s', o) ->
        Forall (fun n => n <= 64) (write_lengths l)).
Proof.
  intros H.
  assert (Hrun : exists l s' o,
             run Overrun.answer 7 (tud_cdc_rx_cb 0 residue) true = (l, s', o) /\
             returned o = true /\
             write_lengths l = [100]).
  { eexists _, _, _. split; [vm_compute; reflexivity|]. split; reflexivity. }
  destruct Hrun as [l [s' [o [Hrun [_ Hlen]]]]].
  apply H in Hrun. rewrite Hlen in Hrun.
  inversion Hrun as [|n ns Hn _]. lia.
Qed.


Lemma rx_cb_terminates_witness :
  exists bound, forall fuel, (bound <= fuel)%nat ->
    exists l s' spare,
      run Fifo.answer fuel (tud_cdc_rx_cb 0 residue) scenario_c
      = (l, s', Returned tt spare).
Proof.
  exact (rx_cb_terminates Fifo.answer 0 Fifo.pending
           (fifo_read_consumes 0)
           (fun s => N.le_refl (Fifo.pending s))
           (fun s _ _ => N.le_refl (Fifo.pending s))
           residue scenario_c).
Defined.

Lemma rx_cb_no_stale_bytes_witness :
  length residue = length blank /\
  run Fifo.answer 20 (tud_cdc_rx_cb 0 residue) scenario_c
  = run Fifo.answer 20 (tud_cdc_rx_cb 0 blank) scenario_c.
Proof.
  split; [reflexivity|].
  exact (proj1 (rx_cb_no_stale_bytes Fifo.answer 0 residue blank 20 scenario_c eq_refl)).
Defined.

Lemma rx_cb_no_empty_write_witness :
  exists l s' o,
    run Fifo.answer 20 (tud_cdc_rx_cb 0 residue) scenario_c = (l, s', o) /\
    Forall (fun n => n <> 0) (write_lengths l).
Proof.
  eexists _, _, _. split; [vm_compute; reflexivity|].
  refine (rx_cb_no_empty_write Fifo.answer 0 residue 20 scenario_c _ _ _ _).
  vm_compute; reflexivity.
Defined.


(** * Further properties of the receive callback *)

Lemma read_sizes_app l1 l2 : read_sizes (l1 ++ l2) = read_sizes l1 ++ read_sizes l2.
Proof. apply flat_map_app. Qed.

Lemma read_counts_app l1 l2 : read_counts (l1 ++ l2) = read_counts l1 ++ read_counts l2.
Proof. apply flat_map_app. Qed.

Lemma nonzero_count (data : list byte) :
  nonzero (N.of_nat (length data)) = true <-> data <> [].
Proof.
  unfold nonzero. rewrite negb_true_iff, <- not_true_iff_false, count_zero. reflexivity.
Qed.

(** The loop calls on its own interface only, and asks every read for the
    size of the array. *)
Lemma drain_log_interface itf buf l fin :
  drain_log itf buf l fin ->
  forallb (on_interface itf) l = true /\
  Forall (fun n => n = sizeof_buf) (read_sizes l).
Proof.
  induction 1 as [buf|buf|buf avail Ha|buf avail Ha|buf avail data Ha Hd
                 |buf avail data r l fin Ha Hd Hl [IHi IHr]];
    cbn [forallb on_interface read_sizes flat_map app];
    rewrite ?N.eqb_refl; repeat split; repeat constructor; assumption.
Qed.

(** Reads that return bytes and writes go in pairs: at most the last such
    read is still without its write, and none is once the loop is left. *)
Lemma drain_log_pairs itf buf l fin :
  drain_log itf buf l fin ->
  exists rest,
    filter nonzero (read_counts l) = write_lengths l ++ rest /\
    (length rest <= 1)%nat /\
    (fin = true -> rest = []).
Proof.
  induction 1 as [buf|buf|buf avail Ha|buf avail Ha|buf avail data Ha Hd
                 |buf avail data r l fin Ha Hd Hl [rest [IH [IH1 IHfin]]]].
  1-4: exists []; split; [reflexivity|]; split; [cbn [length]; lia|reflexivity].
  - exists [N.of_nat (length data)]. apply nonzero_count in Hd.
    cbn [read_counts write_lengths flat_map app filter]. rewrite Hd.
    split; [reflexivity|]. split; [cbn [length]; lia|discriminate].
  - exists rest. apply nonzero_count in Hd.
    cbn [read_counts write_lengths flat_map app filter].
    fold (read_counts l) (write_lengths l). rewrite Hd, IH.
    repeat split; assumption.
Qed.

(** The loop is left on an empty answer only: a query that reports no
    bytes, or a read that returns none. *)
Lemma drain_log_exit itf buf l :
  drain_log itf buf l true ->
  exists body last,
    l = body ++ [last] /\
    (last = Available itf 0 \/ last = Read itf sizeof_buf []).
Proof.
  remember true as fin eqn:Hfin.
  induction 1 as [buf|buf|buf avail Ha|buf avail Ha|buf avail data Ha Hd
                 |buf avail data r l fin Ha Hd Hl IH]; try discriminate.
  - exists [], (Available itf 0). split; [reflexivity|left; reflexivity].
  - exists [Available itf avail], (Read itf sizeof_buf []).
    split; [reflexivity|right; reflexivity].
  - destruct (IH Hfin) as [body [last [-> Hlast]]].
    exists (Available itf avail :: Read itf sizeof_buf data ::
            Write itf (leading (N.of_nat (length data)) (store data buf))
                  (N.of_nat (length data)) r :: body), last.
    split; [reflexivity|exact Hlast].
Qed.

(** The loop never asks for the connection state. *)
Lemma drain_log_no_query itf buf l fin :
  drain_log itf buf l fin -> count is_connected l = 0%nat.
Proof. induction 1; try reflexivity. assumption. Qed.

(** With reads within the buffer size, a write is handed exactly as many
    bytes as its length argument says. *)
Lemma drain_log_in_bounds itf buf l fin :
  drain_log itf buf l fin ->
  length buf = N.to_nat sizeof_buf ->
  forallb read_fits l = true ->
  forallb write_in_bounds l = true.
Proof.
  induction 1 as [buf|buf|buf avail Ha|buf avail Ha|buf avail data Ha Hd
                 |buf avail data r l fin Ha Hd Hl IH]; intros Hbuf Hfit;
    try reflexivity.
  cbn [forallb read_fits] in Hfit.
  apply andb_prop in Hfit as [_ Hfit]. apply andb_prop in Hfit as [Hdata Hfit].
  apply andb_prop in Hfit as [_ Hfit]. apply N.leb_le in Hdata.
  cbn [forallb write_in_bounds]. rewrite leading_store_fits by lia.
  rewrite N.eqb_refl. cbn [andb].
  apply IH; [rewrite length_store; exact Hbuf | exact Hfit].
Qed.

Section Confinement.

Context {St : Type}.
Variable stack : forall T, cdcE T -> St -> St * T.

(** X1 (interface confinement): every call the receive callback makes,
    apart from the connection query, which takes no interface, is made on
    the interface the callback was invoked for. *)
Theorem rx_cb_interface_confined itf buf fuel s l s' o :
  run stack fuel (tud_cdc_rx_cb itf buf) s = (l, s', o) ->
  forallb (on_interface itf) l = true.
Proof.
  intros Hrun. apply run_rx_log in Hrun.
  destruct Hrun as [| |l fin Hl|l Hl]; try reflexivity.
  - exact (proj1 (drain_log_interface _ _ _ _ Hl)).
  - change (forallb (on_interface itf) (l ++ [Flush itf]) = true).
    rewrite forallb_app, (proj1 (drain_log_interface _ _ _ _ Hl)).
    cbn [forallb on_interface andb]. rewrite N.eqb_refl. reflexivity.
Qed.

(** X2 (read capacity): every [tud_cdc_n_read] call of the receive callback
    is passed the size of the transfer array, 64, as its buffer size: the
    callback never asks the stack for more bytes than the array holds. *)
Theorem rx_cb_reads_ask_array_size itf buf fuel s l s' o :
  run stack fuel (tud_cdc_rx_cb itf buf) s = (l, s', o) ->
  Forall (fun n => n = 64) (read_sizes l).
Proof.
  intros Hrun. apply run_rx_log in Hrun.
  destruct Hrun as [| |l fin Hl|l Hl]; try constructor.
  - exact (proj2 (drain_log_interface _ _ _ _ Hl)).
  - change (Forall (fun n => n = 64) (read_sizes (l ++ [Flush itf]))).
    rewrite read_sizes_app. cbn [read_sizes flat_map]. rewrite app_nil_r.
    exact (proj2 (drain_log_interface _ _ _ _ Hl)).
Qed.

(** X3 (one write per read that returned bytes): in call order, the
    lengths passed to [tud_cdc_n_write] are the non-zero counts returned by
    [tud_cdc_n_read], except that the last such read may still be without
    its write while the callback runs; once it has returned, the two
    sequences are equal. *)
Theorem rx_cb_writes_pair_reads itf buf fuel s l s' o :
  run stack fuel (tud_cdc_rx_cb itf buf) s = (l, s', o) ->
  (exists rest,
      filter nonzero (read_counts l) = write_lengths l ++ rest /\
      (length rest <= 1)%nat) /\
  (returned o = true -> write_lengths l = filter nonzero (read_counts l)).
Proof.
  intros Hrun. apply run_rx_log in Hrun.
  destruct Hrun as [| |l fin Hl|l Hl].
  - split; [exists []; split; [reflexivity|cbn [length]; lia]|reflexivity].
  - split; [exists []; split; [reflexivity|cbn [length]; lia]|reflexivity].
  - destruct (drain_log_pairs _ _ _ _ Hl) as [rest [E [H1 _]]].
    split; [exists rest; split; assumption|discriminate].
  - destruct (drain_log_pairs _ _ _ _ Hl) as [rest [E [_ Hfin]]].
    rewrite (Hfin eq_refl), app_nil_r in E.
    assert (E' : write_lengths (Connected true :: l ++ [Flush itf]) =
                 filter nonzero (read_counts (Connected true :: l ++ [Flush itf]))).
    { change (write_lengths (l ++ [Flush itf]) =
              filter nonzero (read_counts (l ++ [Flush itf]))).
      rewrite write_lengths_app, read_counts_app, filter_app, E.
      reflexivity. }
    split; [|intros _; exact E'].
    exists []. rewrite app_nil_r. split; [symmetry; exact E'|cbn [length]; lia].
Qed.

(** X4 (why the loop is left): a receive callback that passed the guard
    and has returned made, right before its flush, a call with an empty
    answer: an availability query that reported 0, or a read that returned
    no bytes. *)
Theorem rx_cb_exit_reason itf buf fuel s l s' o :
  run stack fuel (tud_cdc_rx_cb itf buf) s = (l, s', o) ->
  returned o = true ->
  l = [Connected false] \/
  exists body last,
    l = Connected true :: body ++ [last; Flush itf] /\
    (last = Available itf 0 \/ last = Read itf 64 []).
Proof.
  intros Hrun Hret. apply run_rx_log in Hrun. rewrite Hret in Hrun.
  inversion Hrun as [| |l0 fin Hl|l0 Hl]; subst.
  - left. reflexivity.
  - right. destruct (drain_log_exit _ _ _ Hl) as [body [last [-> Hlast]]].
    exists body, last. rewrite <- app_assoc. split; [reflexivity|exact Hlast].
Qed.

(** X5 (one query, no early flush): the connection query is the first call
    of the receive callback and is not made again, and a callback that
    has not returned has not flushed. *)
Theorem rx_cb_query_once_flush_last itf buf fuel s l s' o :
  run stack fuel (tud_cdc_rx_cb itf buf) s = (l, s', o) ->
  (l = [] \/
   exists connected rest,
     l = Connected connected :: rest /\ count is_connected rest = 0%nat) /\
  (returned o = false -> count is_flush l = 0%nat).
Proof.
  intros Hrun. apply run_rx_log in Hrun.
  destruct Hrun as [| |l fin Hl|l Hl].
  - split; [left; reflexivity|reflexivity].
  - split; [right; exists false, []; split; reflexivity|reflexivity].
  - split.
    + right. exists true, l. split; [reflexivity|].
      exact (drain_log_no_query _ _ _ _ Hl).
    + intros _. exact (drain_log_no_flush _ _ _ _ Hl).
  - split; [|discriminate].
    right. exists true, (l ++ [Flush itf]). split; [reflexivity|].
    rewrite count_app, (drain_log_no_query _ _ _ _ Hl). reflexivity.
Qed.

(** X6 (writes stay within the array): when the array has its 64 bytes and
    the stack keeps its reads within the buffer size it was given, every
    [tud_cdc_n_write] call is handed exactly as many bytes as its length
    argument says, so the stack is never told to read past the bytes the
    array holds. *)
Theorem rx_cb_writes_in_bounds itf buf fuel s l s' o :
  length buf = N.to_nat sizeof_buf ->
  run stack fuel (tud_cdc_rx_cb itf buf) s = (l, s', o) ->
  forallb read_fits l = true ->
  forallb write_in_bounds l = true.
Proof.
  intros Hbuf Hrun Hfit. apply run_rx_log in Hrun.
  destruct Hrun as [| |l fin Hl|l Hl]; try reflexivity.
  - change (forallb read_fits l = true) in Hfit.
    exact (drain_log_in_bounds _ _ _ _ Hl Hbuf Hfit).
  - change (forallb read_fits (l ++ [Flush itf]) = true) in Hfit.
    rewrite forallb_app in Hfit. apply andb_prop in Hfit as [Hfit _].
    change (forallb write_in_bounds (l ++ [Flush itf]) = true).
    rewrite forallb_app, (drain_log_in_bounds _ _ _ _ Hl Hbuf Hfit). reflexivity.
Qed.

End Confinement.

(** ** Draining a well-behaved stack *)

Section Draining.

Context {St : Type}.
Variable stack : forall T, cdcE T -> St -> St * T.
Variable itf : N.

(** The stack's count of bytes available on [itf]. *)
Variable available_count : St -> N.

(** The query reports the count and leaves it alone. *)
Hypothesis available_reports :
  forall s,
    snd (stack _ (tud_cdc_n_available itf) s) = available_count s /\
    available_count (fst (stack _ (tud_cdc_n_available itf) s)) = available_count s.

(** A read returns as many bytes as fit the buffer, or all that remain,
    and takes them off the count. *)
Hypothesis read_takes :
  forall s,
    N.of_nat (length (snd (stack _ (tud_cdc_n_read itf sizeof_buf) s)))
    = N.min sizeof_buf (available_count s) /\
    available_count (fst (stack _ (tud_cdc_n_read itf sizeof_buf) s))
    = available_count s - N.min sizeof_buf (available_count s).

(** Writing and flushing leave the count alone. *)
Hypothesis write_keeps :
  forall s buffer bufsize,
    available_count (fst (stack _ (tud_cdc_n_write itf buffer bufsize) s))
    = available_count s.

Hypothesis flush_keeps :
  forall s,
    available_count (fst (stack _ (tud_cdc_n_write_flush itf) s)) = available_count s.

(** The number of 64-byte chunks [n] bytes take. *)
Lemma chunks_step n :
  n <> 0 ->
  1 + (n - N.min sizeof_buf n + 63) / 64 = (n + 63) / 64.
Proof.
  intros Hn. unfold sizeof_buf.
  destruct (N.le_gt_cases 64 n) as [H|H].
  - rewrite N.min_l by exact H.
    replace (n + 63) with ((n - 64 + 63) + 1 * 64) by lia.
    rewrite N.div_add by discriminate. lia.
  - rewrite N.min_r by lia. replace (n - n + 63) with 63 by lia.
    change (63 / 64) with 0. rewrite N.add_0_r.
    apply (N.div_unique (n + 63) 64 1 (n - 1)); lia.
Qed.

(** A loop that has been left wrote as many bytes as were available on
    entry, in chunks, and left none available. *)
Lemma drain_all fuel0 :
  forall buf s l s' spare,
    run stack fuel0 (drain itf buf) s = (l, s', Returned tt spare) ->
    total (write_lengths l) = available_count s /\
    N.of_nat (length (write_lengths l)) = (available_count s + 63) / 64 /\
    available_count s' = 0.
Proof.
  induction fuel0 as [fuel IH] using lt_wf_ind. intros buf s l s' spare.
  rewrite run_drain, run_drain_step.
  destruct fuel as [|f1]; [discriminate|].
  destruct (available_reports s) as [Ha1 Ha2].
  destruct (stack _ (tud_cdc_n_available itf) s) as [s1 avail]. cbn [fst snd] in *.
  subst avail.
  destruct (N.eqb_spec (available_count s) 0) as [E0|Hne].
  { intros [= <- <- _]. rewrite Ha2, E0. repeat split. }
  destruct f1 as [|f2]; [discriminate|].
  destruct (read_takes s1) as [Hr1 Hr2].
  destruct (stack _ (tud_cdc_n_read itf sizeof_buf) s1) as [s2 data]. cbn [fst snd] in *.
  cbv zeta. rewrite Ha2 in Hr1, Hr2.
  destruct (N.eqb_spec (N.of_nat (length data)) 0) as [E|_];
    [unfold sizeof_buf in Hr1; lia|].
  destruct f2 as [|f3]; [discriminate|].
  pose proof (write_keeps s2 (leading (N.of_nat (length data)) (store data buf))
                          (N.of_nat (length data))) as Hw.
  destruct (stack _ (tud_cdc_n_write itf _ _) s2) as [s3 r]. cbn [fst] in Hw.
  destruct f3 as [|f4]; [discriminate|].
  destruct (run stack f4 (drain itf (store data buf)) s3) as [[l' s''] o'] eqn:Hrest.
  intros [= <- <- ->].
  destruct (IH f4 ltac:(lia) _ _ _ _ _ Hrest) as [Ht [Hn Hz]].
  rewrite Hw, Hr2 in Ht, Hn.
  cbn [write_lengths flat_map app total fold_right length].
  fold (write_lengths l') (total (write_lengths l')).
  split; [rewrite Ht, Hr1; unfold sizeof_buf; lia|].
  split; [|exact Hz].
  rewrite Nat2N.inj_succ, Hn, <- N.add_1_l. apply chunks_step. exact Hne.
Qed.

(** X7 (the loop drains everything): on a stack whose query reports its
    count of available bytes and whose reads return the lesser of the
    buffer size and what remains, a receive callback that passed the guard
    and has returned wrote in all as many bytes as were available when the
    loop was entered, in as many writes as that count takes in chunks of
    64, and left no byte available. *)
Theorem rx_cb_drains_all buf s fuel l s' o :
  snd (stack _ tud_cdc_connected s) = true ->
  run stack fuel (tud_cdc_rx_cb itf buf) s = (l, s', o) ->
  returned o = true ->
  total (write_lengths l) = available_count (fst (stack _ tud_cdc_connected s)) /\
  N.of_nat (length (write_lengths l))
  = (available_count (fst (stack _ tud_cdc_connected s)) + 63) / 64 /\
  available_count s' = 0.
Proof.
  intros Hc. rewrite run_rx_cb.
  destruct fuel as [|f1]; [intros [= _ _ <-]; discriminate|].
  destruct (stack _ tud_cdc_connected s) as [s1 c]. cbn [fst snd] in *. subst c.
  cbn [negb].
  destruct (run stack f1 (drain itf buf) s1) as [[l1 s2] [[] [|f2]|]] eqn:Hdrain;
    try (intros [= _ _ <-]; discriminate).
  pose proof (flush_keeps s2) as Hf.
  destruct (stack _ (tud_cdc_n_write_flush itf) s2) as [s3 u]. cbn [fst] in Hf.
  intros [= <- <- _] _.
  destruct (drain_all _ _ _ _ _ _ Hdrain) as [Ht [Hn Hz]].
  change (write_lengths (Connected true :: l1 ++ [Flush itf]))
    with (write_lengths (l1 ++ [Flush itf])).
  rewrite write_lengths_app. cbn [write_lengths flat_map]. rewrite !app_nil_r.
  rewrite Hf. repeat split; assumption.
Qed.

End Draining.

(** ** Instances of the further properties *)

Lemma fifo_flush_keeps itf (s : Fifo.state) :
  Fifo.pending (fst (Fifo.answer _ (tud_cdc_n_write_flush itf) s)) = Fifo.pending s.
Proof. reflexivity. Qed.

Lemma rx_cb_interface_confined_witness :
  exists l s' o,
    run Fifo.answer 20 (tud_cdc_rx_cb 2 residue) scenario_c = (l, s', o) /\
    forallb (on_interface 2) l = true.
Proof.
  eexists _, _, _. split; [vm_compute; reflexivity|].
  refine (rx_cb_interface_confined Fifo.answer 2 residue 20 scenario_c _ _ _ _).
  vm_compute; reflexivity.
Defined.

Lemma rx_cb_reads_ask_array_size_witness :
  exists l s' o,
    run Fifo.answer 20 (tud_cdc_rx_cb 0 residue) scenario_c = (l, s', o) /\
    read_sizes l = [64; 64; 64] /\
    Forall (fun n => n = 64) (read_sizes l).
Proof.
  eexists _, _, _. split; [vm_compute; reflexivity|].
  split; [reflexivity|].
  refine (rx_cb_reads_ask_array_size Fifo.answer 0 residue 20 scenario_c _ _ _ _).
  vm_compute; reflexivity.
Defined.

Lemma rx_cb_writes_pair_reads_witness :
  exists l s' o,
    run Glitch.answer 9 (tud_cdc_rx_cb 3 residue) tt = (l, s', o) /\
    returned o = true /\
    read_counts l = [0] /\
    write_lengths l = filter nonzero (read_counts l).
Proof.
  eexists _, _, _. split; [vm_compute; reflexivity|].
  split; [reflexivity|]. split; [reflexivity|].
  refine (proj2 (rx_cb_writes_pair_reads Glitch.answer 3 residue 9 tt _ _ _ _) _);
    [vm_compute; reflexivity | reflexivity].
Defined.

Lemma rx_cb_exit_reason_witness :
  [Connected true;
   Available 0 10; Read 0 64 (ramp 10); Write 0 (ramp 10) 10 10;
   Available 0 0;
   Flush 0] = [Connected false] \/
  exists body last,
    [Connected true;
     Available 0 10; Read 0 64 (ramp 10); Write 0 (ramp 10) 10 10;
     Available 0 0;
     Flush 0] = Connected true :: body ++ [last; Flush 0] /\
    (last = Available 0 0 \/ last = Read 0 64 []).
Proof.
  refine (rx_cb_exit_reason Fifo.answer 0 residue 7 scenario_a
            _ (Fifo.mk true [] [] (ramp 10)) (Returned tt 0) _ _);
    [vm_compute; reflexivity | reflexivity].
Defined.

Lemma rx_cb_query_once_flush_last_witness :
  exists l s' o,
    run Fifo.answer 10 (tud_cdc_rx_cb 0 residue) scenario_c = (l, s', o) /\
    returned o = false /\
    count is_flush l = 0%nat.
Proof.
  eexists _, _, _. split; [vm_compute; reflexivity|].
  split; [reflexivity|].
  refine (proj2 (rx_cb_query_once_flush_last Fifo.answer 0 residue 10 scenario_c _ _ _ _) _);
    [vm_compute; reflexivity | reflexivity].
Defined.

Lemma rx_cb_writes_in_bounds_witness :
  exists l s' o,
    run Fifo.answer 20 (tud_cdc_rx_cb 0 residue) scenario_c = (l, s', o) /\
    forallb write_in_bounds l = true.
Proof.
  eexists _, _, _. split; [vm_compute; reflexivity|].
  refine (rx_cb_writes_in_bounds Fifo.answer 0 residue 20 scenario_c _ _ _ _ _ _);
    [reflexivity | vm_compute; reflexivity | reflexivity].
Defined.

Lemma rx_cb_drains_all_witness :
  exists l s' o,
    run Fifo.answer 20 (tud_cdc_rx_cb 0 residue) scenario_c = (l, s', o) /\
    total (write_lengths l) = 130 /\
    N.of_nat (length (write_lengths l)) = 3 /\
    Fifo.pending s' = 0.
Proof.
  eexists _, _, _. split; [vm_compute; reflexivity|].
  refine (rx_cb_drains_all Fifo.answer 0 Fifo.pending
            (fifo_available_reports 0) (fifo_read_takes 0) (fifo_write_keeps 0)
            (fifo_flush_keeps 0) residue scenario_c 20 _ _ _ _ _ _);
    [reflexivity | vm_compute; reflexivity | reflexivity].
Defined.

(** ** Nothing is echoed that was not available *)

Section Conservation.

Context {St : Type}.
Variable stack : forall T, cdcE T -> St -> St * T.
Variable itf : N.

(** The stack's count of bytes available on [itf]. *)
Variable available_count : St -> N.

(** A read takes the bytes it returns off the count. *)
Hypothesis read_pays :
  forall s,
    available_count (fst (stack _ (tud_cdc_n_read itf sizeof_buf) s))
    + N.of_nat (length (snd (stack _ (tud_cdc_n_read itf sizeof_buf) s)))
    <= available_count s.

(** No other call of the loop, nor the flush, raises the count. *)
Hypothesis available_raises_none :
  forall s,
    available_count (fst (stack _ (tud_cdc_n_available itf) s)) <= available_count s.

Hypothesis write_raises_none :
  forall s buffer bufsize,
    available_count (fst (stack _ (tud_cdc_n_write itf buffer bufsize) s))
    <= available_count s.

Hypothesis flush_raises_none :
  forall s,
    available_count (fst (stack _ (tud_cdc_n_write_flush itf) s)) <= available_count s.

Lemma drain_conserves fuel0 :
  forall buf s l s' o,
    run stack fuel0 (drain itf buf) s = (l, s', o) ->
    total (write_lengths l) + available_count s' <= available_count s.
Proof.
  induction fuel0 as [fuel IH] using lt_wf_ind. intros buf s l s' o.
  rewrite run_drain, run_drain_step.
  destruct fuel as [|f1]; [intros [= <- <- _]; cbn; lia|].
  pose proof (available_raises_none s) as Hq.
  destruct (stack _ (tud_cdc_n_available itf) s) as [s1 avail]. cbn [fst] in Hq.
  destruct (avail =? 0); [intros [= <- <- _]; cbn; lia|].
  destruct f1 as [|f2]; [intros [= <- <- _]; cbn; lia|].
  pose proof (read_pays s1) as Hr.
  destruct (stack _ (tud_cdc_n_read itf sizeof_buf) s1) as [s2 data]. cbn [fst snd] in Hr.
  cbv zeta.
  destruct (N.of_nat (length data) =? 0); [intros [= <- <- _]; cbn; lia|].
  destruct f2 as [|f3]; [intros [= <- <- _]; cbn; lia|].
  pose proof (write_raises_none s2 (leading (N.of_nat (length data)) (store data buf))
                                (N.of_nat (length data))) as Hw.
  destruct (stack _ (tud_cdc_n_write itf _ _) s2) as [s3 r]. cbn [fst] in Hw.
  destruct f3 as [|f4]; [intros [= <- <- _]; cbn; lia|].
  destruct (run stack f4 (drain itf (store data buf)) s3) as [[l' s''] o'] eqn:Hrest.
  intros [= <- <- _].
  pose proof (IH f4 ltac:(lia) _ _ _ _ _ Hrest) as Hrec.
  cbn [write_lengths flat_map app total fold_right].
  fold (write_lengths l') (total (write_lengths l')). lia.
Qed.

(** X8 (conservation): on a stack whose reads take what they return off
    its count of available bytes and whose other calls do not raise it,
    the lengths the receive callback has passed to [tud_cdc_n_write], added
    up, together with the bytes still available, never exceed the bytes
    that were available after the connection query, at any point of a run. *)
Theorem rx_cb_conserves buf s fuel l s' o :
  run stack fuel (tud_cdc_rx_cb itf buf) s = (l, s', o) ->
  l <> [] ->
  total (write_lengths l) + available_count s'
  <= available_count (fst (stack _ tud_cdc_connected s)).
Proof.
  rewrite run_rx_cb.
  destruct fuel as [|f1]; [intros [= <- _ _] H; contradiction|].
  destruct (stack _ tud_cdc_connected s) as [s1 c]. cbn [fst].
  destruct (negb c); [intros [= <- <- _] _; cbn; lia|].
  destruct (run stack f1 (drain itf buf) s1) as [[l1 s2] o1] eqn:Hdrain.
  apply drain_conserves in Hdrain.
  assert (Hpend : total (write_lengths (Connected c :: l1)) + available_count s2
                  <= available_count s1) by exact Hdrain.
  destruct o1 as [[] [|f2]|]; try (intros [= <- <- _] _; exact Hpend).
  pose proof (flush_raises_none s2) as Hf.
  destruct (stack _ (tud_cdc_n_write_flush itf) s2) as [s3 u]. cbn [fst] in Hf.
  intros [= <- <- _] _.
  change (write_lengths (Connected c :: l1 ++ [Flush itf]))
    with (write_lengths (l1 ++ [Flush itf])).
  rewrite write_lengths_app. cbn [write_lengths flat_map]. rewrite app_nil_r.
  change (write_lengths (Connected c :: l1)) with (write_lengths l1) in Hpend. lia.
Qed.

End Conservation.

Lemma fifo_read_pays itf (s : Fifo.state) :
  Fifo.pending (fst (Fifo.answer _ (tud_cdc_n_read itf sizeof_buf) s))
  + N.of_nat (length (snd (Fifo.answer _ (tud_cdc_n_read itf sizeof_buf) s)))
  <= Fifo.pending s.
Proof.
  unfold Fifo.pending. cbn [Fifo.answer fst snd Fifo.rx].
  rewrite length_skipn, length_firstn. lia.
Qed.

Lemma rx_cb_conserves_witness :
  exists l s' o,
    run Fifo.answer 10 (tud_cdc_rx_cb 0 residue) scenario_c = (l, s', o) /\
    total (write_lengths l) = 128 /\
    Fifo.pending s' = 2 /\
    total (write_lengths l) + Fifo.pending s' <= 130.
Proof.
  eexists _, _, _. split; [vm_compute; reflexivity|].
  split; [reflexivity|]. split; [reflexivity|].
  refine (rx_cb_conserves Fifo.answer 0 Fifo.pending (fifo_read_pays 0)
            (fun s => N.le_refl (Fifo.pending s))
            (fun s _ _ => N.le_refl (Fifo.pending s))
            (fun s => N.le_refl (Fifo.pending s))
            residue scenario_c 10 _ _ _ _ _);
    [vm_compute; reflexivity | discriminate].
Defined.
